(* Shallow embedding of the Solana "hello world" counter program:
   src/program-rust/src/instruction.rs (HelloInstruction::unpack) and
   src/program-rust/src/lib.rs (GreetingAccount, process_instruction). *)

From Stdlib Require Import ZArith List Lia Bool.
From Stdlib Require Import Strings.Byte.
Import ListNotations.
Open Scope Z_scope.

(** * Machine data *)

(** A [u32] is a [Z] in [0, 2^32). *)
Definition u32_modulus : Z := 2 ^ 32.

Definition byte_val (b : byte) : Z := Z.of_N (Byte.to_N b).

(** Low 8 bits of a [Z], as a byte ([as u8]). *)
Definition byte_of_Z (z : Z) : byte :=
  match Byte.of_N (Z.to_N (Z.land z 255)) with
  | Some b => b
  | None => x00
  end.

(** [u32::from_le_bytes]. *)
Definition u32_from_le_bytes (b0 b1 b2 b3 : byte) : Z :=
  Z.lor (byte_val b0)
    (Z.lor (Z.shiftl (byte_val b1) 8)
       (Z.lor (Z.shiftl (byte_val b2) 16) (Z.shiftl (byte_val b3) 24))).

(** [u32::to_le_bytes]. *)
Definition u32_to_le_bytes (v : Z) : list byte :=
  [byte_of_Z v; byte_of_Z (Z.shiftr v 8);
   byte_of_Z (Z.shiftr v 16); byte_of_Z (Z.shiftr v 24)].

(** [Pubkey] is a 32-byte array, compared bytewise by [!=]. *)
Definition Pubkey := list byte.

Definition pubkey_eqb (a b : Pubkey) : bool :=
  if list_eq_dec Byte.byte_eq_dec a b then true else false.

(** The [ProgramError] variants this program can return. *)
Inductive ProgramError :=
| InvalidInstructionData
| IncorrectProgramId
| NotEnoughAccountKeys
| BorshIoError.

(** Outcome of a Rust computation: a [Result] value or a panic. *)
Inductive Outcome (A : Type) :=
| Ok (a : A)
| Err (e : ProgramError)
| Panic.
Arguments Ok {A} a.
Arguments Err {A} e.
Arguments Panic {A}.

Definition obind {A B} (m : Outcome A) (f : A -> Outcome B) : Outcome B :=
  match m with
  | Ok a => f a
  | Err e => Err e
  | Panic => Panic
  end.

(** * instruction.rs *)

Module Instruction.

Inductive HelloInstruction :=
| Increment
| Decrement
| Set' (value : Z). (* [Set(u32)]; [Set] is a Rocq keyword *)

(** [<[u8]>::split_first]. *)
Definition split_first (input : list byte) : option (byte * list byte) :=
  match input with
  | [] => None
  | x :: xs => Some (x, xs)
  end.

(** Range indexing [s[..n]]: panics when [n > s.len()]. *)
Definition slice_to (n : nat) (s : list byte) : Outcome (list byte) :=
  if Nat.leb n (length s) then Ok (firstn n s) else Panic.

(** [<[u8; 4]>::try_from(&[u8])]: succeeds exactly on slices of length 4. *)
Definition try_into_array4 (s : list byte) : option (byte * byte * byte * byte) :=
  match s with
  | [a; b; c; d] => Some (a, b, c, d)
  | _ => None
  end.

Definition unpack (input : list byte) : Outcome HelloInstruction :=
  match split_first input with
  | None => Err InvalidInstructionData
  | Some (tag, rest) =>
      match tag with
      | x00 => Ok Increment
      | x01 => Ok Decrement
      | x02 =>
          if negb (Nat.eqb (length rest) 4) then Err InvalidInstructionData
          else
            obind (slice_to 4 rest) (fun s =>
              match try_into_array4 s with
              | Some (b0, b1, b2, b3) => Ok (Set' (u32_from_le_bytes b0 b1 b2 b3))
              | None => Err InvalidInstructionData
              end)
      | _ => Err InvalidInstructionData
      end
  end.

End Instruction.

Import Instruction.

(** * lib.rs *)

Record AccountInfo := mkAccount {
  key : Pubkey;
  owner : Pubkey;
  data : list byte
}.

Record GreetingAccount := mkGreeting { counter : Z }.

(** An invocation runs against the store of accounts passed by the runtime
    (their data cells are the only mutable state), threading errors as the
    Rust [?] operator does. *)
Definition Store := list AccountInfo.

Definition M (A : Type) := Store -> Outcome A * Store.

Definition ret {A} (a : A) : M A := fun st => (Ok a, st).
Definition fail {A} (e : ProgramError) : M A := fun st => (Err e, st).
Definition lift {A} (o : Outcome A) : M A := fun st => (o, st).
Definition bind {A B} (m : M A) (f : A -> M B) : M B :=
  fun st =>
    match m st with
    | (Ok a, st') => f a st'
    | (Err e, st') => (Err e, st')
    | (Panic, st') => (Panic, st')
    end.

Notation "x <- m ;; k" := (bind m (fun x => k))
  (at level 61, m at next level, right associativity).
Notation "m ;;; k" := (bind m (fun _ => k))
  (at level 61, right associativity).

Fixpoint replace_nth {A} (l : list A) (i : nat) (x : A) : list A :=
  match l, i with
  | [], _ => []
  | _ :: t, O => x :: t
  | h :: t, S i' => h :: replace_nth t i' x
  end.

(** [next_account_info]: the iterator is a position in the store. *)
Definition next_account_info (it : nat) : M (nat * nat) :=
  fun st =>
    if Nat.ltb it (length st) then (Ok (it, S it), st)
    else (Err NotEnoughAccountKeys, st).

Definition get_account (i : nat) : M AccountInfo :=
  fun st =>
    match nth_error st i with
    | Some a => (Ok a, st)
    | None => (Panic, st)
    end.

(** Borsh [u32] deserialisation: reads 4 little-endian bytes. *)
Definition deserialize_u32 (buf : list byte) : option (Z * list byte) :=
  match buf with
  | b0 :: b1 :: b2 :: b3 :: rest => Some (u32_from_le_bytes b0 b1 b2 b3, rest)
  | _ => None
  end.

(** [BorshDeserialize::try_from_slice]: deserialise, then reject leftover
    bytes ("Not all bytes read"). *)
Definition try_from_slice (buf : list byte) : Outcome GreetingAccount :=
  match deserialize_u32 buf with
  | None => Err BorshIoError
  | Some (v, rest) =>
      match rest with
      | [] => Ok (mkGreeting v)
      | _ => Err BorshIoError
      end
  end.

(** [Write::write_all] on a [&mut [u8]]: copies as many bytes as fit, then
    fails with [WriteZero] if some remain. *)
Definition write_all_slice (bytes buf : list byte) : list byte * Outcome unit :=
  let k := Nat.min (length bytes) (length buf) in
  (firstn k bytes ++ skipn k buf,
   if Nat.leb (length bytes) (length buf) then Ok tt else Err BorshIoError).

(** [greeting_account.serialize(&mut &mut account.data.borrow_mut()[..])]. *)
Definition serialize (g : GreetingAccount) (i : nat) : M unit :=
  fun st =>
    match nth_error st i with
    | None => (Panic, st)
    | Some a =>
        let '(buf, r) := write_all_slice (u32_to_le_bytes g.(counter)) a.(data) in
        (r, replace_nth st i (mkAccount a.(key) a.(owner) buf))
    end.

(** [counter += 1] and [counter -= 1] on a [u32]. Solana programs are built
    with the release profile, where [overflow-checks] is off, so these wrap
    modulo 2^32. *)
Definition u32_wrapping_add (a b : Z) : Z := (a + b) mod u32_modulus.
Definition u32_wrapping_sub (a b : Z) : Z := (a - b) mod u32_modulus.

(** The [match instruction { ... }] block of [process_instruction]. *)
Definition apply_instruction (g : GreetingAccount) (ins : HelloInstruction)
  : GreetingAccount :=
  match ins with
  | Increment => mkGreeting (u32_wrapping_add g.(counter) 1)
  | Decrement => mkGreeting (u32_wrapping_sub g.(counter) 1)
  | Set' value => mkGreeting value
  end.

Definition process_instruction (program_id : Pubkey) (instruction_data : list byte)
  : M unit :=
  instruction <- lift (unpack instruction_data) ;;
  acc <- next_account_info 0 ;;
  let account := fst acc in
  info <- get_account account ;;
  (if negb (pubkey_eqb info.(owner) program_id) then fail IncorrectProgramId
   else ret tt) ;;;
  greeting_account <- lift (try_from_slice info.(data)) ;;
  let greeting_account := apply_instruction greeting_account instruction in
  serialize greeting_account account ;;;
  ret tt.

(** Run one invocation on the accounts passed in. *)
Definition invoke (program_id : Pubkey) (accounts : Store) (instruction_data : list byte)
  : Outcome unit * Store :=
  process_instruction program_id instruction_data accounts.

(** The per-invocation state machine read from section 4.3 of the spec:
    Decode, fetch the target account, AuthorizeCheck, read the record,
    Apply, Serialize; every error is terminal and leaves the store as it
    was. *)
Definition spec_invocation (program_id : Pubkey) (accounts : Store)
  (bytes : list byte) : Outcome unit * Store :=
  match unpack bytes with
  | Err e => (Err e, accounts)
  | Panic => (Panic, accounts)
  | Ok op =>
      match accounts with
      | [] => (Err NotEnoughAccountKeys, accounts)
      | a :: rest =>
          if negb (pubkey_eqb a.(owner) program_id) then (Err IncorrectProgramId, accounts)
          else
            match try_from_slice a.(data) with
            | Ok r =>
                (Ok tt, mkAccount a.(key) a.(owner)
                          (u32_to_le_bytes (apply_instruction r op).(counter)) :: rest)
            | Err e => (Err e, accounts)
            | Panic => (Panic, accounts)
            end
      end
  end.

(** A sequence of transactions sent one after the other against the same
    accounts; each is an independent invocation. *)
Fixpoint run_invocations (program_id : Pubkey) (accounts : Store)
  (txs : list (list byte)) : list (Outcome unit) * Store :=
  match txs with
  | [] => ([], accounts)
  | bytes :: more =>
      let '(r, accounts') := invoke program_id accounts bytes in
      let '(rs, final) := run_invocations program_id accounts' more in
      (r :: rs, final)
  end.

(** * The [test] module of lib.rs *)

(** [Result::unwrap] panics on [Err]. *)
Definition unwrap {A} (o : Outcome A) : Outcome A :=
  match o with
  | Ok a => Ok a
  | Err _ => Panic
  | Panic => Panic
  end.

(** [assert_eq!] on two [u32] values. *)
Definition assert_eq_u32 (left right : Z) : Outcome unit :=
  if Z.eqb left right then Ok tt else Panic.

(** [GreetingAccount::try_from_slice(&accounts[0].data.borrow()).unwrap().counter];
    [accounts[0]] panics on an empty vector. *)
Definition first_counter (accounts : Store) : Outcome Z :=
  match accounts with
  | [] => Panic
  | a :: _ => obind (unwrap (try_from_slice a.(data))) (fun g => Ok g.(counter))
  end.

(** [Pubkey::default()]: 32 zero bytes. *)
Definition pubkey_default : Pubkey := repeat x00 32.

(** The body of [test_sanity], with its instruction bytes as a parameter. *)
Definition sanity_run (instruction_data : list byte) : Outcome unit :=
  let program_id := pubkey_default in
  let key := pubkey_default in
  let owner := pubkey_default in
  let data := repeat x00 4 in
  let accounts := [mkAccount key owner data] in
  obind (first_counter accounts) (fun c0 =>
  obind (assert_eq_u32 c0 0) (fun _ =>
  let '(r1, accounts) := invoke program_id accounts instruction_data in
  obind (unwrap r1) (fun _ =>
  obind (first_counter accounts) (fun c1 =>
  obind (assert_eq_u32 c1 1) (fun _ =>
  let '(r2, accounts) := invoke program_id accounts instruction_data in
  obind (unwrap r2) (fun _ =>
  obind (first_counter accounts) (fun c2 =>
  assert_eq_u32 c2 2))))))).

(** [test_sanity]: [let instruction_data: Vec<u8> = Vec::new();]. *)
Definition test_sanity : Outcome unit := sanity_run [].

(** * Auxiliary lemmas *)

Lemma pubkey_eqb_refl (p : Pubkey) : pubkey_eqb p p = true.
Proof. unfold pubkey_eqb. destruct (list_eq_dec Byte.byte_eq_dec p p); congruence. Qed.

Lemma pubkey_eqb_neq (p q : Pubkey) : p <> q -> pubkey_eqb p q = false.
Proof. unfold pubkey_eqb. destruct (list_eq_dec Byte.byte_eq_dec p q); congruence. Qed.

Lemma try_from_slice_ok_shape (d : list byte) (g : GreetingAccount) :
  try_from_slice d = Ok g ->
  exists b0 b1 b2 b3, d = [b0; b1; b2; b3] /\ g = mkGreeting (u32_from_le_bytes b0 b1 b2 b3).
Proof.
  unfold try_from_slice, deserialize_u32.
  destruct d as [|b0 [|b1 [|b2 [|b3 [|b4 t]]]]]; try discriminate.
  intros H. injection H as <-. exists b0, b1, b2, b3. split; reflexivity.
Qed.

Lemma try_from_slice_never_panics (d : list byte) : try_from_slice d <> Panic.
Proof.
  unfold try_from_slice, deserialize_u32.
  destruct d as [|b0 [|b1 [|b2 [|b3 [|b4 t]]]]]; discriminate.
Qed.

Lemma unpack_never_panics (input : list byte) : unpack input <> Panic.
Proof.
  unfold unpack, split_first.
  destruct input as [|tag rest]; [discriminate|].
  destruct tag; try discriminate.
  destruct (Nat.eqb (length rest) 4) eqn:E; simpl; [|discriminate].
  apply Nat.eqb_eq in E.
  destruct rest as [|b0 [|b1 [|b2 [|b3 [|b4 t]]]]]; simpl in E; try discriminate.
Qed.

(** The embedded entry point follows the spec's state machine exactly. *)
Lemma invoke_steps (program_id : Pubkey) (accounts : Store) (bytes : list byte) :
  invoke program_id accounts bytes = spec_invocation program_id accounts bytes.
Proof.
  unfold invoke, process_instruction, spec_invocation, bind, lift, ret, fail.
  destruct (unpack bytes) as [ins|e|]; [|reflexivity|reflexivity].
  destruct accounts as [|a rest]; [reflexivity|].
  unfold next_account_info, get_account. simpl.
  destruct (negb (pubkey_eqb (owner a) program_id)); [reflexivity|].
  destruct (try_from_slice (data a)) as [g|e|] eqn:Hd; [|reflexivity|reflexivity].
  apply try_from_slice_ok_shape in Hd as (b0 & b1 & b2 & b3 & Hd & ->).
  unfold serialize. simpl. rewrite Hd. reflexivity.
Qed.

Lemma invoke_owned_ok (program_id k d : list byte) (rest : Store) (bytes : list byte)
  (ins : HelloInstruction) (g : GreetingAccount) :
  unpack bytes = Ok ins -> try_from_slice d = Ok g ->
  invoke program_id (mkAccount k program_id d :: rest) bytes =
  (Ok tt, mkAccount k program_id (u32_to_le_bytes (apply_instruction g ins).(counter)) :: rest).
Proof.
  intros Hu Hd. rewrite invoke_steps. unfold spec_invocation.
  rewrite Hu. simpl. rewrite pubkey_eqb_refl. simpl. rewrite Hd. reflexivity.
Qed.

Lemma invoke_never_panics (program_id : Pubkey) (accounts : Store) (bytes : list byte) :
  fst (invoke program_id accounts bytes) <> Panic.
Proof.
  rewrite invoke_steps. unfold spec_invocation.
  pose proof (unpack_never_panics bytes) as Hu.
  destruct (unpack bytes) as [ins|e|]; simpl; try discriminate; [|congruence].
  destruct accounts as [|a rest]; [discriminate|].
  destruct (negb (pubkey_eqb (owner a) program_id)); [discriminate|].
  pose proof (try_from_slice_never_panics (data a)).
  destruct (try_from_slice (data a)); simpl; congruence.
Qed.

Lemma byte_val_bounds (b : byte) : 0 <= byte_val b < 2 ^ 8.
Proof. unfold byte_val. pose proof (Byte.to_N_bounded b). simpl. lia. Qed.

Lemma lor_shiftl_add (a b k : Z) :
  0 <= k -> 0 <= a < 2 ^ k -> Z.lor a (Z.shiftl b k) = a + b * 2 ^ k.
Proof.
  intros Hk Ha. rewrite Z.shiftl_mul_pow2 by lia.
  assert (Hl : Z.land a (b * 2 ^ k) = 0).
  { apply Z.bits_inj'. intros n Hn. rewrite Z.land_spec, Z.bits_0.
    destruct (Z.lt_ge_cases n k).
    - rewrite Z.mul_pow2_bits_low by lia. apply andb_false_r.
    - rewrite <- (Z.mod_small a (2 ^ k)) by lia.
      rewrite Z.mod_pow2_bits_high by lia. reflexivity. }
  rewrite <- Z.lxor_lor by exact Hl. symmetry. apply Z.add_nocarry_lxor. exact Hl.
Qed.

(** [u32::from_le_bytes] is the base-256 number with [b0] least significant. *)
Lemma u32_from_le_bytes_value (b0 b1 b2 b3 : byte) :
  u32_from_le_bytes b0 b1 b2 b3 =
  byte_val b0 + 2 ^ 8 * byte_val b1 + 2 ^ 16 * byte_val b2 + 2 ^ 24 * byte_val b3.
Proof.
  unfold u32_from_le_bytes.
  pose proof (byte_val_bounds b0). pose proof (byte_val_bounds b1).
  pose proof (byte_val_bounds b2). pose proof (byte_val_bounds b3).
  set (v0 := byte_val b0) in *. set (v1 := byte_val b1) in *.
  set (v2 := byte_val b2) in *. set (v3 := byte_val b3) in *.
  assert (E3 : Z.lor (Z.shiftl v2 16) (Z.shiftl v3 24) = Z.shiftl (v2 + v3 * 2 ^ 8) 16).
  { rewrite <- (lor_shiftl_add v2 v3 8) by lia.
    rewrite Z.shiftl_lor, Z.shiftl_shiftl by lia. reflexivity. }
  rewrite E3.
  assert (E2 : Z.lor (Z.shiftl v1 8) (Z.shiftl (v2 + v3 * 2 ^ 8) 16)
               = Z.shiftl (v1 + (v2 + v3 * 2 ^ 8) * 2 ^ 8) 8).
  { rewrite <- (lor_shiftl_add v1 (v2 + v3 * 2 ^ 8) 8) by lia.
    rewrite Z.shiftl_lor, Z.shiftl_shiftl by lia. reflexivity. }
  rewrite E2, lor_shiftl_add by lia. lia.
Qed.

Lemma u32_from_le_bytes_range (b0 b1 b2 b3 : byte) :
  0 <= u32_from_le_bytes b0 b1 b2 b3 < u32_modulus.
Proof.
  rewrite u32_from_le_bytes_value. unfold u32_modulus.
  pose proof (byte_val_bounds b0). pose proof (byte_val_bounds b1).
  pose proof (byte_val_bounds b2). pose proof (byte_val_bounds b3).
  change (2 ^ 8) with 256 in *. change (2 ^ 16) with 65536. change (2 ^ 24) with 16777216. change (2 ^ 32) with 4294967296. lia.
Qed.

(** * Claims *)

(** C1: [Increment] adds 1 and [Decrement] subtracts 1 modulo 2^32, so
    0xFFFFFFFF + 1 = 0 and 0 - 1 = 0xFFFFFFFF; on an owned account holding a
    valid record, both instructions succeed (no overflow error) and store the
    wrapped value. *)
Theorem counter_wrapping :
  (forall g : GreetingAccount,
      apply_instruction g Increment = mkGreeting ((g.(counter) + 1) mod 2 ^ 32) /\
      apply_instruction g Decrement = mkGreeting ((g.(counter) - 1) mod 2 ^ 32)) /\
  apply_instruction (mkGreeting 0xFFFFFFFF) Increment = mkGreeting 0 /\
  apply_instruction (mkGreeting 0) Decrement = mkGreeting 0xFFFFFFFF /\
  (forall (program_id k : Pubkey) (b0 b1 b2 b3 : byte) (rest : Store),
      invoke program_id (mkAccount k program_id [b0; b1; b2; b3] :: rest) [x00] =
      (Ok tt, mkAccount k program_id
                (u32_to_le_bytes ((u32_from_le_bytes b0 b1 b2 b3 + 1) mod 2 ^ 32)) :: rest) /\
      invoke program_id (mkAccount k program_id [b0; b1; b2; b3] :: rest) [x01] =
      (Ok tt, mkAccount k program_id
                (u32_to_le_bytes ((u32_from_le_bytes b0 b1 b2 b3 - 1) mod 2 ^ 32)) :: rest)).
Proof.
  split; [intros g; split; reflexivity|].
  split; [reflexivity|]. split; [reflexivity|].
  intros program_id k b0 b1 b2 b3 rest. split.
  - apply (invoke_owned_ok _ _ _ _ _ Increment (mkGreeting (u32_from_le_bytes b0 b1 b2 b3)));
      reflexivity.
  - apply (invoke_owned_ok _ _ _ _ _ Decrement (mkGreeting (u32_from_le_bytes b0 b1 b2 b3)));
      reflexivity.
Qed.

(** C2 (as stated): an owner mismatch always yields [IncorrectProgramId].
    Refuted: malformed instruction bytes are rejected by the decoder first. *)
Lemma owner_mismatch_not_always_auth_error :
  ~ (forall (program_id : Pubkey) (a : AccountInfo) (rest : Store) (bytes : list byte),
        a.(owner) <> program_id ->
        invoke program_id (a :: rest) bytes = (Err IncorrectProgramId, a :: rest)).
Proof.
  intros H.
  specialize (H (repeat x01 32) (mkAccount (repeat x00 32) (repeat x02 32) [x00; x00; x00; x00])
                [] [x03]).
  assert (Hne : repeat x02 32 <> repeat x01 32) by discriminate.
  specialize (H Hne). vm_compute in H. discriminate.
Qed.

Lemma unpack_err_invalid (input : list byte) (e : ProgramError) :
  unpack input = Err e -> e = InvalidInstructionData.
Proof.
  unfold unpack, split_first.
  destruct input as [|tag rest]; [congruence|].
  destruct tag; try congruence.
  destruct (Nat.eqb (length rest) 4) eqn:E; simpl; [|congruence].
  apply Nat.eqb_eq in E.
  destruct rest as [|b0 [|b1 [|b2 [|b3 [|b4 t]]]]]; simpl in E; discriminate.
Qed.

(** C2 (amended): when the first account's owner differs from the program
    id, every account's stored bytes are left unchanged, whatever the
    instruction bytes; the invocation fails with [IncorrectProgramId] when
    the instruction bytes decode, and with the decode error
    [InvalidInstructionData] when they do not (decoding runs first). *)
Theorem owner_mismatch_rejected (program_id : Pubkey) (a : AccountInfo) (rest : Store)
  (bytes : list byte) :
  a.(owner) <> program_id ->
  snd (invoke program_id (a :: rest) bytes) = a :: rest /\
  (forall ins : HelloInstruction,
      unpack bytes = Ok ins -> fst (invoke program_id (a :: rest) bytes) = Err IncorrectProgramId) /\
  (forall e : ProgramError,
      unpack bytes = Err e -> fst (invoke program_id (a :: rest) bytes) = Err InvalidInstructionData) /\
  (fst (invoke program_id (a :: rest) bytes) = Err IncorrectProgramId \/
   fst (invoke program_id (a :: rest) bytes) = Err InvalidInstructionData).
Proof.
  intros Hne. rewrite invoke_steps. unfold spec_invocation.
  pose proof (unpack_never_panics bytes) as Hp.
  pose proof (unpack_err_invalid bytes) as He.
  rewrite (pubkey_eqb_neq _ _ Hne). simpl.
  destruct (unpack bytes) as [ins|e|]; [|specialize (He e eq_refl); subst e|congruence];
    simpl; repeat split; auto; intros; discriminate.
Qed.

Lemma owner_mismatch_rejected_witness :
  repeat x02 32 <> repeat x01 32 /\
  snd (invoke (repeat x01 32)
         [mkAccount (repeat x00 32) (repeat x02 32) [x05; x00; x00; x00]] [x03]) =
  [mkAccount (repeat x00 32) (repeat x02 32) [x05; x00; x00; x00]] /\
  fst (invoke (repeat x01 32)
         [mkAccount (repeat x00 32) (repeat x02 32) [x05; x00; x00; x00]] [x00]) =
  Err IncorrectProgramId /\
  fst (invoke (repeat x01 32)
         [mkAccount (repeat x00 32) (repeat x02 32) [x05; x00; x00; x00]] [x03]) =
  Err InvalidInstructionData.
Proof.
  pose proof (owner_mismatch_rejected (repeat x01 32)
    (mkAccount (repeat x00 32) (repeat x02 32) [x05; x00; x00; x00]) [] [x03]
    ltac:(discriminate)) as H3.
  pose proof (owner_mismatch_rejected (repeat x01 32)
    (mkAccount (repeat x00 32) (repeat x02 32) [x05; x00; x00; x00]) [] [x00]
    ltac:(discriminate)) as H0.
  split; [discriminate|].
  split; [exact (proj1 H3)|].
  split.
  - apply (proj1 (proj2 H0) Increment). reflexivity.
  - apply (proj1 (proj2 (proj2 H3)) InvalidInstructionData). reflexivity.
Defined.

(** C3: [2, b0, b1, b2, b3] decodes to [Set] of the little-endian value of
    the four bytes; a tag 2 with a payload of any other length is
    [InvalidInstructionData]. *)
Theorem unpack_set_exact :
  (forall b0 b1 b2 b3 : byte,
      unpack [x02; b0; b1; b2; b3] = Ok (Set' (u32_from_le_bytes b0 b1 b2 b3)) /\
      u32_from_le_bytes b0 b1 b2 b3 =
      byte_val b0 + 2 ^ 8 * byte_val b1 + 2 ^ 16 * byte_val b2 + 2 ^ 24 * byte_val b3) /\
  (forall rest : list byte, length rest <> 4%nat ->
      unpack (x02 :: rest) = Err InvalidInstructionData).
Proof.
  split.
  - intros b0 b1 b2 b3. split; [reflexivity | apply u32_from_le_bytes_value].
  - intros rest Hl. unfold unpack. simpl.
    apply Nat.eqb_neq in Hl. rewrite Hl. reflexivity.
Qed.

Lemma unpack_set_exact_witness :
  length [x01; x02; x03; x04; x05] <> 4%nat /\
  unpack [x02; x01; x02; x03; x04; x05] = Err InvalidInstructionData.
Proof.
  split; [discriminate|].
  apply (proj2 unpack_set_exact [x01; x02; x03; x04; x05]). discriminate.
Defined.

(** C4: the empty input and every tag outside {0, 1, 2} decode to
    [InvalidInstructionData], whatever the payload. *)
Theorem unpack_invalid_tags :
  unpack [] = Err InvalidInstructionData /\
  (forall (t : byte) (payload : list byte), t <> x00 -> t <> x01 -> t <> x02 ->
      unpack (t :: payload) = Err InvalidInstructionData).
Proof.
  split; [reflexivity|].
  intros t payload H0 H1 H2. destruct t; try congruence; reflexivity.
Qed.

Lemma unpack_invalid_tags_witness :
  unpack [x03; x00; x00; x00; x00] = Err InvalidInstructionData.
Proof.
  apply (proj2 unpack_invalid_tags x03 [x00; x00; x00; x00]); discriminate.
Defined.

(** C5: tags 0 and 1 decode to [Increment] and [Decrement] whatever bytes
    follow them. *)
Theorem unpack_ignores_trailing (trailing : list byte) :
  unpack (x00 :: trailing) = Ok Increment /\ unpack (x01 :: trailing) = Ok Decrement.
Proof. split; reflexivity. Qed.

(** C6: [Set v] makes the counter [v] whatever it was; on an owned account
    holding a valid record the invocation stores exactly that value. *)
Theorem set_overrides_counter :
  (forall (g : GreetingAccount) (v : Z), (apply_instruction g (Set' v)).(counter) = v) /\
  (forall (program_id k : Pubkey) (c0 c1 c2 c3 b0 b1 b2 b3 : byte) (rest : Store),
      invoke program_id (mkAccount k program_id [c0; c1; c2; c3] :: rest)
        [x02; b0; b1; b2; b3] =
      (Ok tt, mkAccount k program_id (u32_to_le_bytes (u32_from_le_bytes b0 b1 b2 b3)) :: rest)).
Proof.
  split; [reflexivity|].
  intros program_id k c0 c1 c2 c3 b0 b1 b2 b3 rest.
  apply (invoke_owned_ok _ _ _ _ _ (Set' (u32_from_le_bytes b0 b1 b2 b3))
           (mkGreeting (u32_from_le_bytes c0 c1 c2 c3))); reflexivity.
Qed.

(** C7: an invocation runs Decode, fetches the target account, runs the
    owner check, reads the record, applies the instruction and serialises
    it, in that order ([spec_invocation]); a decode error is returned
    whatever the accounts (also when the owner mismatches); every error
    leaves all accounts unchanged; and no invocation panics. *)
Theorem invocation_order :
  (forall (program_id : Pubkey) (accounts : Store) (bytes : list byte),
      invoke program_id accounts bytes = spec_invocation program_id accounts bytes) /\
  (forall (program_id : Pubkey) (accounts : Store) (bytes : list byte) (e : ProgramError),
      unpack bytes = Err e -> invoke program_id accounts bytes = (Err e, accounts)) /\
  (forall (program_id : Pubkey) (accounts : Store) (bytes : list byte) (e : ProgramError),
      fst (invoke program_id accounts bytes) = Err e ->
      snd (invoke program_id accounts bytes) = accounts) /\
  (forall (program_id : Pubkey) (accounts : Store) (bytes : list byte),
      fst (invoke program_id accounts bytes) <> Panic).
Proof.
  split; [exact invoke_steps|].
  split.
  { intros program_id accounts bytes e Hu.
    rewrite invoke_steps. unfold spec_invocation. rewrite Hu. reflexivity. }
  split; [|exact invoke_never_panics].
  intros program_id accounts bytes e.
  rewrite invoke_steps. unfold spec_invocation.
  destruct (unpack bytes) as [ins|e'|]; simpl; try congruence.
  destruct accounts as [|a rest]; simpl; [reflexivity|].
  destruct (negb (pubkey_eqb (owner a) program_id)); simpl; [reflexivity|].
  destruct (try_from_slice (data a)); simpl; congruence.
Qed.

Lemma invocation_order_witness :
  invoke (repeat x01 32)
    [mkAccount (repeat x00 32) (repeat x02 32) [x00; x00; x00; x00]] [x02; x00] =
  (Err InvalidInstructionData,
   [mkAccount (repeat x00 32) (repeat x02 32) [x00; x00; x00; x00]]) /\
  snd (invoke (repeat x01 32)
         [mkAccount (repeat x00 32) (repeat x02 32) [x00; x00; x00; x00]] [x00]) =
  [mkAccount (repeat x00 32) (repeat x02 32) [x00; x00; x00; x00]].
Proof.
  split.
  - apply (proj1 (proj2 invocation_order)). reflexivity.
  - apply (proj1 (proj2 (proj2 invocation_order)) _ _ _ IncorrectProgramId).
    vm_compute. reflexivity.
Defined.

(** C8: from a zeroed counter on an owned account, the instruction bytes
    [0], [0], [2, 0x0A, 0, 0, 0] and [1] store the counters 1, 2, 10 and 9. *)
Theorem counter_scenario (program_id k : Pubkey) :
  let store (n : Z) := [mkAccount k program_id (u32_to_le_bytes n)] in
  store 0 = [mkAccount k program_id [x00; x00; x00; x00]] /\
  invoke program_id (store 0) [x00] = (Ok tt, store 1) /\
  invoke program_id (store 1) [x00] = (Ok tt, store 2) /\
  invoke program_id (store 2) [x02; x0a; x00; x00; x00] = (Ok tt, store 10) /\
  invoke program_id (store 10) [x01] = (Ok tt, store 9) /\
  map (fun n => try_from_slice (u32_to_le_bytes n)) [1; 2; 10; 9] =
  [Ok (mkGreeting 1); Ok (mkGreeting 2); Ok (mkGreeting 10); Ok (mkGreeting 9)].
Proof.
  intros store. unfold store.
  split; [reflexivity|].
  split; [rewrite (invoke_owned_ok _ _ _ _ _ Increment (mkGreeting 0)); reflexivity|].
  split; [rewrite (invoke_owned_ok _ _ _ _ _ Increment (mkGreeting 1)); reflexivity|].
  split; [rewrite (invoke_owned_ok _ _ _ _ _ (Set' 10) (mkGreeting 2)); reflexivity|].
  split; [rewrite (invoke_owned_ok _ _ _ _ _ Decrement (mkGreeting 10)); reflexivity|].
  reflexivity.
Qed.

(** C9: [unpack] never panics on any input: the [rest[..4]] slice is only
    taken when [rest.len() == 4], and there the conversion to [[u8; 4]]
    always succeeds, so its failure branch is dead. *)
Theorem unpack_total :
  (forall input : list byte, unpack input <> Panic) /\
  (forall rest : list byte, length rest = 4%nat ->
      exists s arr, slice_to 4 rest = Ok s /\ try_into_array4 s = Some arr).
Proof.
  split; [exact unpack_never_panics|].
  intros rest Hl.
  destruct rest as [|b0 [|b1 [|b2 [|b3 [|b4 t]]]]]; simpl in Hl; try discriminate.
  exists [b0; b1; b2; b3], (b0, b1, b2, b3). split; reflexivity.
Qed.

Lemma unpack_total_witness :
  exists s arr, slice_to 4 [x01; x02; x03; x04] = Ok s /\ try_into_array4 s = Some arr.
Proof. apply (proj2 unpack_total). reflexivity. Defined.

(** C10: with no accounts, a decodable instruction fails with
    [NotEnoughAccountKeys] (the decode ran first: an undecodable one fails
    with its decode error instead), before any owner check, and nothing is
    written. *)
Theorem missing_account_rejected :
  (forall (program_id : Pubkey) (bytes : list byte) (ins : HelloInstruction),
      unpack bytes = Ok ins -> invoke program_id [] bytes = (Err NotEnoughAccountKeys, [])) /\
  (forall (program_id : Pubkey) (bytes : list byte) (e : ProgramError),
      unpack bytes = Err e -> invoke program_id [] bytes = (Err e, [])).
Proof.
  split; intros program_id bytes x Hu;
    rewrite invoke_steps; unfold spec_invocation; rewrite Hu; reflexivity.
Qed.

Lemma missing_account_rejected_witness :
  invoke (repeat x01 32) [] [x01] = (Err NotEnoughAccountKeys, []) /\
  invoke (repeat x01 32) [] [x07] = (Err InvalidInstructionData, []).
Proof.
  split.
  - apply (proj1 missing_account_rejected _ _ Decrement). reflexivity.
  - apply (proj2 missing_account_rejected). reflexivity.
Defined.

(** * Further properties of the program *)

Lemma byte_val_byte_of_Z (z : Z) : byte_val (byte_of_Z z) = z mod 256.
Proof.
  unfold byte_of_Z, byte_val.
  assert (Hl : Z.land z 255 = z mod 2 ^ 8)
    by (change 255 with (Z.ones 8); apply Z.land_ones; lia).
  rewrite Hl. change (2 ^ 8) with 256.
  pose proof (Z.mod_pos_bound z 256 ltac:(lia)) as Hb.
  pose proof (Byte.to_of_N_option_map (Z.to_N (z mod 256))) as Ho.
  destruct (Byte.of_N (Z.to_N (z mod 256))) as [b|] eqn:E.
  - apply Byte.to_of_N in E. rewrite E. apply Z2N.id. lia.
  - simpl in Ho. rewrite (proj2 (N.leb_le _ _)) in Ho by lia. discriminate.
Qed.

Lemma byte_val_inj (a b : byte) : byte_val a = byte_val b -> a = b.
Proof.
  unfold byte_val. intros H. apply N2Z.inj in H.
  assert (Some a = Some b) as E.
  { rewrite <- (Byte.of_to_N a), <- (Byte.of_to_N b), H. reflexivity. }
  injection E as E. exact E.
Qed.

Lemma from_le_to_le (v : Z) :
  0 <= v < u32_modulus ->
  u32_from_le_bytes (byte_of_Z v) (byte_of_Z (Z.shiftr v 8))
    (byte_of_Z (Z.shiftr v 16)) (byte_of_Z (Z.shiftr v 24)) = v.
Proof.
  unfold u32_modulus. intros Hv.
  rewrite u32_from_le_bytes_value, !byte_val_byte_of_Z, !Z.shiftr_div_pow2 by lia.
  change (2 ^ 8) with 256 in *. change (2 ^ 16) with 65536 in *.
  change (2 ^ 24) with 16777216 in *. change (2 ^ 32) with 4294967296 in *.
  replace (v / 16777216) with (v / 256 / 256 / 256) by (rewrite !Z.div_div by lia; reflexivity).
  replace (v / 65536) with (v / 256 / 256) by (rewrite Z.div_div by lia; reflexivity).
  pose proof (Z.div_mod v 256 ltac:(lia)) as E1.
  pose proof (Z.div_mod (v / 256) 256 ltac:(lia)) as E2.
  pose proof (Z.div_mod (v / 256 / 256) 256 ltac:(lia)) as E3.
  assert (Hq : 0 <= v / 256 / 256 / 256 < 256).
  { rewrite !Z.div_div by lia. split; [apply Z.div_pos; lia|].
    apply Z.div_lt_upper_bound; lia. }
  rewrite (Z.mod_small (v / 256 / 256 / 256)) by exact Hq.
  lia.
Qed.

Lemma to_le_from_le (b0 b1 b2 b3 : byte) :
  u32_to_le_bytes (u32_from_le_bytes b0 b1 b2 b3) = [b0; b1; b2; b3].
Proof.
  unfold u32_to_le_bytes. rewrite !Z.shiftr_div_pow2 by lia.
  rewrite u32_from_le_bytes_value.
  pose proof (byte_val_bounds b0). pose proof (byte_val_bounds b1).
  pose proof (byte_val_bounds b2). pose proof (byte_val_bounds b3).
  change (2 ^ 8) with 256 in *. change (2 ^ 16) with 65536 in *.
  change (2 ^ 24) with 16777216 in *.
  set (v0 := byte_val b0) in *. set (v1 := byte_val b1) in *.
  set (v2 := byte_val b2) in *. set (v3 := byte_val b3) in *.
  set (x := v0 + 256 * v1 + 65536 * v2 + 16777216 * v3).
  rewrite <- (Z.div_unique x 256 (v1 + 256 * v2 + 65536 * v3) v0) by (unfold x; lia).
  rewrite <- (Z.div_unique x 65536 (v2 + 256 * v3) (v0 + 256 * v1)) by (unfold x; lia).
  rewrite <- (Z.div_unique x 16777216 v3 (v0 + 256 * v1 + 65536 * v2)) by (unfold x; lia).
  f_equal; [|f_equal; [|f_equal; [|f_equal]]]; apply byte_val_inj;
    rewrite byte_val_byte_of_Z; fold v0 v1 v2 v3.
  - symmetry. apply (Z.mod_unique _ _ (v1 + 256 * v2 + 65536 * v3)); unfold x; lia.
  - symmetry. apply (Z.mod_unique _ _ (v2 + 256 * v3)); lia.
  - symmetry. apply (Z.mod_unique _ _ v3); lia.
  - symmetry. apply (Z.mod_unique _ _ 0); lia.
Qed.

Lemma try_from_slice_to_le (v : Z) :
  0 <= v < u32_modulus -> try_from_slice (u32_to_le_bytes v) = Ok (mkGreeting v).
Proof.
  intros Hv. unfold try_from_slice, u32_to_le_bytes, deserialize_u32.
  rewrite from_le_to_le by exact Hv. reflexivity.
Qed.

Lemma run_invocations_cons (program_id : Pubkey) (accounts : Store) (bytes : list byte)
  (more : list (list byte)) :
  run_invocations program_id accounts (bytes :: more) =
  let '(r, accounts') := invoke program_id accounts bytes in
  let '(rs, final) := run_invocations program_id accounts' more in
  (r :: rs, final).
Proof. reflexivity. Qed.

Lemma wrapping_range (z : Z) : 0 <= z mod u32_modulus < u32_modulus.
Proof. apply Z.mod_pos_bound. reflexivity. Qed.

Lemma invoke_counter (program_id k : Pubkey) (c : Z) (rest : Store) (bytes : list byte)
  (ins : HelloInstruction) :
  0 <= c < u32_modulus -> unpack bytes = Ok ins ->
  invoke program_id (mkAccount k program_id (u32_to_le_bytes c) :: rest) bytes =
  (Ok tt, mkAccount k program_id
            (u32_to_le_bytes (apply_instruction (mkGreeting c) ins).(counter)) :: rest).
Proof.
  intros Hc Hu. apply invoke_owned_ok; [exact Hu|]. apply try_from_slice_to_le. exact Hc.
Qed.

(** The Borsh encoding of the stored [GreetingAccount] round-trips: the four
    little-endian bytes of a [u32] deserialise to that value, and any four
    stored bytes are re-serialised unchanged. *)
Theorem greeting_encoding_roundtrip :
  (forall v : Z, 0 <= v < u32_modulus ->
      try_from_slice (u32_to_le_bytes v) = Ok (mkGreeting v)) /\
  (forall b0 b1 b2 b3 : byte,
      try_from_slice [b0; b1; b2; b3] = Ok (mkGreeting (u32_from_le_bytes b0 b1 b2 b3)) /\
      u32_to_le_bytes (u32_from_le_bytes b0 b1 b2 b3) = [b0; b1; b2; b3]).
Proof.
  split; [exact try_from_slice_to_le|].
  intros b0 b1 b2 b3. split; [reflexivity | apply to_le_from_le].
Qed.

Lemma greeting_encoding_roundtrip_witness :
  try_from_slice (u32_to_le_bytes 305419896) = Ok (mkGreeting 305419896).
Proof. apply (proj1 greeting_encoding_roundtrip). unfold u32_modulus. lia. Defined.

(** On an owned account holding a record, [2, b0, b1, b2, b3] succeeds and
    stores exactly the four payload bytes. *)
Theorem set_stores_payload (program_id k : Pubkey) (c0 c1 c2 c3 b0 b1 b2 b3 : byte)
  (rest : Store) :
  invoke program_id (mkAccount k program_id [c0; c1; c2; c3] :: rest) [x02; b0; b1; b2; b3] =
  (Ok tt, mkAccount k program_id [b0; b1; b2; b3] :: rest).
Proof.
  rewrite (invoke_owned_ok _ _ _ _ _ (Set' (u32_from_le_bytes b0 b1 b2 b3))
             (mkGreeting (u32_from_le_bytes c0 c1 c2 c3))) by reflexivity.
  simpl. rewrite to_le_from_le. reflexivity.
Qed.

(** An [Increment] transaction followed by a [Decrement] one (or the other
    way round) on an owned account restores its stored bytes, also across
    the wrap-around at 0 and 0xFFFFFFFF. *)
Theorem increment_decrement_cancel (program_id k : Pubkey) (b0 b1 b2 b3 : byte)
  (rest : Store) :
  run_invocations program_id (mkAccount k program_id [b0; b1; b2; b3] :: rest) [[x00]; [x01]] =
  ([Ok tt; Ok tt], mkAccount k program_id [b0; b1; b2; b3] :: rest) /\
  run_invocations program_id (mkAccount k program_id [b0; b1; b2; b3] :: rest) [[x01]; [x00]] =
  ([Ok tt; Ok tt], mkAccount k program_id [b0; b1; b2; b3] :: rest).
Proof.
  rewrite <- (to_le_from_le b0 b1 b2 b3).
  pose proof (u32_from_le_bytes_range b0 b1 b2 b3) as Hv.
  set (v := u32_from_le_bytes b0 b1 b2 b3) in *.
  split.
  - rewrite run_invocations_cons, (invoke_counter _ _ _ _ _ Increment) by (auto || reflexivity).
    cbv beta iota zeta. cbn [apply_instruction counter]. unfold u32_wrapping_add.
    rewrite run_invocations_cons, (invoke_counter _ _ _ _ _ Decrement)
      by (apply wrapping_range || reflexivity).
    cbv beta iota zeta. cbn [apply_instruction counter run_invocations].
    unfold u32_wrapping_sub.
    rewrite Zminus_mod_idemp_l, Z.add_simpl_r, Z.mod_small by exact Hv. reflexivity.
  - rewrite run_invocations_cons, (invoke_counter _ _ _ _ _ Decrement) by (auto || reflexivity).
    cbv beta iota zeta. cbn [apply_instruction counter]. unfold u32_wrapping_sub.
    rewrite run_invocations_cons, (invoke_counter _ _ _ _ _ Increment)
      by (apply wrapping_range || reflexivity).
    cbv beta iota zeta. cbn [apply_instruction counter run_invocations].
    unfold u32_wrapping_add.
    rewrite Zplus_mod_idemp_l, Z.sub_add, Z.mod_small by exact Hv. reflexivity.
Qed.

Lemma increments_from (program_id k : Pubkey) (rest : Store) (n : nat) :
  forall c, 0 <= c < u32_modulus ->
  run_invocations program_id (mkAccount k program_id (u32_to_le_bytes c) :: rest)
    (repeat [x00] n) =
  (repeat (Ok tt) n,
   mkAccount k program_id (u32_to_le_bytes ((c + Z.of_nat n) mod u32_modulus)) :: rest).
Proof.
  induction n as [|n IH]; intros c Hc.
  - simpl. rewrite Z.add_0_r, Z.mod_small by exact Hc. reflexivity.
  - cbn [repeat]. rewrite run_invocations_cons, (invoke_counter _ _ _ _ _ Increment)
      by (auto || reflexivity).
    cbv beta iota zeta. cbn [apply_instruction counter]. unfold u32_wrapping_add.
    rewrite IH by apply wrapping_range.
    rewrite Zplus_mod_idemp_l.
    replace (c + 1 + Z.of_nat n) with (c + Z.of_nat (S n)) by lia. reflexivity.
Qed.

Lemma decrements_from (program_id k : Pubkey) (rest : Store) (n : nat) :
  forall c, 0 <= c < u32_modulus ->
  run_invocations program_id (mkAccount k program_id (u32_to_le_bytes c) :: rest)
    (repeat [x01] n) =
  (repeat (Ok tt) n,
   mkAccount k program_id (u32_to_le_bytes ((c - Z.of_nat n) mod u32_modulus)) :: rest).
Proof.
  induction n as [|n IH]; intros c Hc.
  - simpl. rewrite Z.sub_0_r, Z.mod_small by exact Hc. reflexivity.
  - cbn [repeat]. rewrite run_invocations_cons, (invoke_counter _ _ _ _ _ Decrement)
      by (auto || reflexivity).
    cbv beta iota zeta. cbn [apply_instruction counter]. unfold u32_wrapping_sub.
    rewrite IH by apply wrapping_range.
    rewrite Zminus_mod_idemp_l.
    replace (c - 1 - Z.of_nat n) with (c - Z.of_nat (S n)) by lia. reflexivity.
Qed.

(** [n] successive [Increment] transactions on an owned account holding the
    counter [c] all succeed and leave [(c + n) mod 2^32]; [n] [Decrement]
    transactions leave [(c - n) mod 2^32]. *)
Theorem repeated_steps_accumulate (program_id k : Pubkey) (b0 b1 b2 b3 : byte)
  (rest : Store) (n : nat) :
  let c := u32_from_le_bytes b0 b1 b2 b3 in
  run_invocations program_id (mkAccount k program_id [b0; b1; b2; b3] :: rest)
    (repeat [x00] n) =
  (repeat (Ok tt) n,
   mkAccount k program_id (u32_to_le_bytes ((c + Z.of_nat n) mod 2 ^ 32)) :: rest) /\
  run_invocations program_id (mkAccount k program_id [b0; b1; b2; b3] :: rest)
    (repeat [x01] n) =
  (repeat (Ok tt) n,
   mkAccount k program_id (u32_to_le_bytes ((c - Z.of_nat n) mod 2 ^ 32)) :: rest).
Proof.
  intros c. rewrite <- (to_le_from_le b0 b1 b2 b3).
  pose proof (u32_from_le_bytes_range b0 b1 b2 b3).
  split; [apply increments_from | apply decrements_from]; assumption.
Qed.

Lemma data_length_ok (d : list byte) (g : GreetingAccount) :
  try_from_slice d = Ok g -> length d = 4%nat.
Proof.
  intros H. apply try_from_slice_ok_shape in H as (b0 & b1 & b2 & b3 & -> & _).
  reflexivity.
Qed.

(** Whatever the outcome, an invocation keeps the number of accounts, every
    account's key and owner and the length of every data buffer, and never
    touches any account after the first. *)
Theorem invoke_preserves_layout (program_id : Pubkey) (accounts : Store)
  (bytes : list byte) :
  let accounts' := snd (invoke program_id accounts bytes) in
  map key accounts' = map key accounts /\
  map owner accounts' = map owner accounts /\
  map (fun a => length a.(data)) accounts' = map (fun a => length a.(data)) accounts /\
  tl accounts' = tl accounts.
Proof.
  intros accounts'. unfold accounts'. rewrite invoke_steps. unfold spec_invocation.
  destruct (unpack bytes) as [ins|e|]; simpl; auto.
  destruct accounts as [|a rest]; simpl; auto.
  destruct (negb (pubkey_eqb (owner a) program_id)); simpl; auto.
  destruct (try_from_slice (data a)) as [g|e|] eqn:Hd; simpl; auto.
  apply data_length_ok in Hd. rewrite Hd. auto.
Qed.

(** When the first account is owned and the instruction decodes but the
    account's data is not exactly 4 bytes, the invocation fails with the
    Borsh deserialisation error and changes nothing. *)
Theorem malformed_record_rejected (program_id k : Pubkey) (d : list byte) (rest : Store)
  (bytes : list byte) (ins : HelloInstruction) :
  unpack bytes = Ok ins -> length d <> 4%nat ->
  invoke program_id (mkAccount k program_id d :: rest) bytes =
  (Err BorshIoError, mkAccount k program_id d :: rest).
Proof.
  intros Hu Hl. rewrite invoke_steps. unfold spec_invocation. rewrite Hu. simpl.
  rewrite pubkey_eqb_refl. simpl.
  destruct d as [|b0 [|b1 [|b2 [|b3 [|b4 t]]]]]; simpl in Hl; try reflexivity.
  congruence.
Qed.

Lemma malformed_record_rejected_witness :
  invoke pubkey_default (mkAccount pubkey_default pubkey_default (repeat x00 8) :: []) [x00] =
  (Err BorshIoError, mkAccount pubkey_default pubkey_default (repeat x00 8) :: []).
Proof. apply (malformed_record_rejected _ _ _ _ _ Increment); [reflexivity | discriminate]. Defined.

Lemma unpack_set_range (bytes : list byte) (v : Z) :
  unpack bytes = Ok (Set' v) -> 0 <= v < u32_modulus.
Proof.
  unfold unpack, split_first.
  destruct bytes as [|tag rest]; [discriminate|].
  destruct tag; try discriminate.
  destruct (Nat.eqb (length rest) 4) eqn:E; simpl; [|discriminate].
  apply Nat.eqb_eq in E.
  destruct rest as [|b0 [|b1 [|b2 [|b3 [|b4 t]]]]]; simpl in E; try discriminate.
  simpl. intros H. injection H as <-. apply u32_from_le_bytes_range.
Qed.

(** Every decoded [Set] value is a [u32], and after every successful
    invocation the first account's data deserialises to a counter in
    [0, 2^32). *)
Theorem stored_counter_stays_u32 :
  (forall (bytes : list byte) (v : Z), unpack bytes = Ok (Set' v) -> 0 <= v < 2 ^ 32) /\
  (forall (program_id : Pubkey) (accounts : Store) (bytes : list byte),
      fst (invoke program_id accounts bytes) = Ok tt ->
      exists a rest v,
        snd (invoke program_id accounts bytes) = a :: rest /\
        try_from_slice a.(data) = Ok (mkGreeting v) /\ 0 <= v < 2 ^ 32).
Proof.
  split; [exact unpack_set_range|].
  intros program_id accounts bytes. rewrite invoke_steps. unfold spec_invocation.
  destruct (unpack bytes) as [ins|e|] eqn:Hu; simpl; try discriminate.
  destruct accounts as [|a rest]; simpl; [discriminate|].
  destruct (negb (pubkey_eqb (owner a) program_id)); simpl; [discriminate|].
  destruct (try_from_slice (data a)) as [g|e|]; simpl; try discriminate.
  intros _.
  assert (Hr : 0 <= (apply_instruction g ins).(counter) < u32_modulus).
  { destruct ins as [| |v]; cbn [apply_instruction counter];
      [apply wrapping_range | apply wrapping_range | exact (unpack_set_range _ _ Hu)]. }
  eexists _, rest, _. split; [reflexivity|].
  split; [apply try_from_slice_to_le; exact Hr | exact Hr].
Qed.

Lemma stored_counter_stays_u32_witness :
  exists a rest v,
    snd (invoke pubkey_default [mkAccount pubkey_default pubkey_default [xff; xff; xff; xff]]
           [x00]) = a :: rest /\
    try_from_slice a.(data) = Ok (mkGreeting v) /\ 0 <= v < 2 ^ 32.
Proof. apply (proj2 stored_counter_stays_u32). reflexivity. Defined.

(** Accounts after the first are never read: an invocation on [a :: rest]
    returns what it returns on [[a]] and leaves [rest] as it is. *)
Theorem trailing_accounts_ignored (program_id : Pubkey) (a : AccountInfo) (rest : Store)
  (bytes : list byte) :
  invoke program_id (a :: rest) bytes =
  (fst (invoke program_id [a] bytes), snd (invoke program_id [a] bytes) ++ rest).
Proof.
  rewrite !invoke_steps. unfold spec_invocation.
  destruct (unpack bytes); simpl; try reflexivity.
  destruct (negb (pubkey_eqb (owner a) program_id)); simpl; try reflexivity.
  destruct (try_from_slice (data a)); reflexivity.
Qed.

(** The repository's [test_sanity] sends empty instruction data, which
    [unpack] rejects: its first [process_instruction(..).unwrap()] fails on
    [InvalidInstructionData], so the test panics; with the instruction
    bytes [[0]] (Increment) the same test body passes. *)
Theorem test_sanity_panics :
  fst (invoke pubkey_default [mkAccount pubkey_default pubkey_default (repeat x00 4)] []) =
  Err InvalidInstructionData /\
  test_sanity = Panic /\
  sanity_run [x00] = Ok tt.
Proof. vm_compute. split; [reflexivity | split; reflexivity]. Qed.

(** [unpack] has a single failure mode: every rejected input yields
    [InvalidInstructionData]. *)
Theorem unpack_error_is_invalid_data (input : list byte) (e : ProgramError) :
  unpack input = Err e -> e = InvalidInstructionData.
Proof.
  unfold unpack, split_first.
  destruct input as [|tag rest]; [congruence|].
  destruct tag; try congruence.
  destruct (Nat.eqb (length rest) 4) eqn:E; simpl; [|congruence].
  apply Nat.eqb_eq in E.
  destruct rest as [|b0 [|b1 [|b2 [|b3 [|b4 t]]]]]; simpl in E; try discriminate.
Qed.

Lemma unpack_error_is_invalid_data_witness :
  unpack [x02; x00] = Err InvalidInstructionData /\ InvalidInstructionData = InvalidInstructionData.
Proof. split; [reflexivity | apply (unpack_error_is_invalid_data [x02; x00]); reflexivity]. Defined.
